(** * Registerer: a shallow embedding of [factory::Registry<T, Args...>]

    This development models the header-only registry of [registerer.h]:
    one partition [Registry<T, Args...>] owns two [std::map<std::string,
    Entry>] tables (the store returned by [GetRegistry] and the override
    table returned by [GetInjectors]) and one [std::mutex].

    - [std::map] is modelled as an association list kept in the order of
      [std::less<std::string>] (lexicographic, bytes compared as unsigned
      characters, which is [String.compare]); [emplace] inserts only when
      the key is absent, [find] returns the element, [erase] removes it.
    - The abstraction pointer [T*] is [option T] ([None] is the null
      pointer); the argument pack [Args...] is a single type [A].
    - Every operation runs in a small state monad over the two tables that
      also records the mutex operations and table accesses it performs. *)

From Stdlib Require Import String Ascii List Bool Sorted Lia ZArith.
Import ListNotations.
Open Scope string_scope.
Open Scope list_scope.

(** ** [std::map<std::string, V>] as an ordered association list *)
Module EntryMap.
Section Map.
Variable V : Type.

Definition t := list (string * V).

Definition empty : t := [].

(** [std::map::emplace]: insert at the ordered position, no-op when an
    element with an equivalent key exists. *)
Fixpoint emplace (k : string) (v : V) (m : t) : t :=
  match m with
  | [] => [(k, v)]
  | (k', v') :: m' =>
      match String.compare k k' with
      | Lt => (k, v) :: m
      | Eq => m
      | Gt => (k', v') :: emplace k v m'
      end
  end.

(** [std::map::find]: the element whose key equals [k], if any. *)
Fixpoint find (k : string) (m : t) : option V :=
  match m with
  | [] => None
  | (k', v') :: m' => if String.eqb k k' then Some v' else find k m'
  end.

(** [std::map::erase(key)]: remove the element(s) with key [k]. *)
Definition erase (k : string) (m : t) : t :=
  filter (fun p => negb (String.eqb k (fst p))) m.

(** Range-for over the map: keys in iteration order. *)
Definition keys (m : t) : list string := map fst m.

End Map.
Arguments empty {V}.
Arguments emplace {V} k v m.
Arguments find {V} k m.
Arguments erase {V} k m.
Arguments keys {V} m.
End EntryMap.

(** ** Mutex and table-access events *)
Inductive event : Type :=
| Lock      (* registry_mutex_.lock() *)
| Unlock    (* registry_mutex_.unlock() *)
| Touch.    (* a read or write of GetRegistry() or GetInjectors() *)

(** A trace is well formed for a non-reentrant [std::mutex] when it starts
    and ends with the mutex free, never locks a held mutex, never unlocks a
    free one and touches the tables only while holding it. *)
Fixpoint mutex_ok_from (held : bool) (tr : list event) : bool :=
  match tr with
  | [] => negb held
  | Lock :: tr' => if held then false else mutex_ok_from true tr'
  | Unlock :: tr' => if held then mutex_ok_from false tr' else false
  | Touch :: tr' => if held then mutex_ok_from held tr' else false
  end.

Definition mutex_ok (tr : list event) : bool := mutex_ok_from false tr.

Section Registry.
(** [T] is the abstraction, [A] the tuple of constructor arguments. *)
Variables T A : Type.

(** [typedef std::function<T *(Args...)> __function_t;] *)
Definition function_t := A -> option T.

(** [struct Entry { const char *const file; const char *const line;
    const __function_t function; };] *)
Record Entry := mkEntry {
  file : string;
  line : string;
  function : function_t
}.

(** The two static tables of one partition. *)
Record state := mkState {
  registry : EntryMap.t Entry;    (* GetRegistry() *)
  injectors : EntryMap.t Entry    (* GetInjectors() *)
}.

Definition initial : state := mkState EntryMap.empty EntryMap.empty.

(** The monad: state passing plus the list of mutex/table events. *)
Definition M (X : Type) := state -> X * state * list event.

Definition ret {X} (x : X) : M X := fun s => (x, s, []).
Definition bind {X Y} (c : M X) (f : X -> M Y) : M Y :=
  fun s => let '(x, s1, tr1) := c s in
           let '(y, s2, tr2) := f x s1 in (y, s2, tr1 ++ tr2).

Notation "x <- c1 ;; c2" := (bind c1 (fun x => c2))
  (at level 61, c1 at next level, right associativity).
Notation "c1 ;;; c2" := (bind c1 (fun _ => c2))
  (at level 61, right associativity).

Definition mutex_lock : M unit := fun s => (tt, s, [Lock]).
Definition mutex_unlock : M unit := fun s => (tt, s, [Unlock]).
Definition get_registry : M (EntryMap.t Entry) :=
  fun s => (registry s, s, [Touch]).
Definition get_injectors : M (EntryMap.t Entry) :=
  fun s => (injectors s, s, [Touch]).
Definition modify_registry (f : EntryMap.t Entry -> EntryMap.t Entry) : M unit :=
  fun s => (tt, mkState (f (registry s)) (injectors s), [Touch]).
Definition modify_injectors (f : EntryMap.t Entry -> EntryMap.t Entry) : M unit :=
  fun s => (tt, mkState (registry s) (f (injectors s)), [Touch]).

(** Running a computation: its result, final state and trace. *)
Definition result {X} (c : M X) (s : state) : X := fst (fst (c s)).
Definition final {X} (c : M X) (s : state) : state := snd (fst (c s)).
Definition trace {X} (c : M X) (s : state) : list event := snd (c s).

(** [GetEntry]: look in the injectors first, then in the registry.
    The returned pointer [&(it->second)] is [None] when [it] is [end()]. *)
Definition GetEntry (key : string) (args : A) : M (bool * option Entry) :=
  mutex_lock ;;;
  inj <- get_injectors ;;
  r <- (match EntryMap.find key inj with
        | Some e => ret (true, Some e)
        | None =>
            reg <- get_registry ;;
            match EntryMap.find key reg with
            | Some e => ret (true, Some e)
            | None => ret (false, None)
            end
        end) ;;
  mutex_unlock ;;;
  ret r.

(** [CanNew]: [return GetEntry(key, args...).first;] *)
Definition CanNew (key : string) (args : A) : M bool :=
  entry <- GetEntry key args ;;
  ret (fst entry).

(** [New]: call the entry's function when found, then
    [registry_mutex_.unlock()] and return the pointer. *)
Definition New (key : string) (args : A) : M (option T) :=
  entry <- GetEntry key args ;;
  let res := if fst entry
             then match snd entry with
                  | Some e => function e args
                  | None => None
                  end
             else None in
  mutex_unlock ;;;
  ret res.

(** [GetKeys]. *)
Definition GetKeys : M (list string) :=
  mutex_lock ;;;
  reg <- get_registry ;;
  let keys := EntryMap.keys reg in
  mutex_unlock ;;;
  ret keys.

(** The string built for one element by [GetKeysWithLocations]. *)
Definition key_with_location (kv : string * Entry) : string :=
  (file (snd kv) ++ ":" ++ line (snd kv) ++ ": " ++ fst kv)%string.

(** [GetKeysWithLocations]. *)
Definition GetKeysWithLocations : M (list string) :=
  mutex_lock ;;;
  reg <- get_registry ;;
  let keys := map key_with_location reg in
  mutex_unlock ;;;
  ret keys.

(** [Injector::Injector(key, function, file, line)]. *)
Definition Injector (key : string) (f : function_t)
           (file line : string) : M unit :=
  mutex_lock ;;;
  modify_injectors (EntryMap.emplace key (mkEntry file line f)) ;;;
  mutex_unlock.

(** [Injector::~Injector()]: erase the injector's key. *)
Definition Injector_destroy (key : string) : M unit :=
  mutex_lock ;;;
  modify_injectors (EntryMap.erase key) ;;;
  mutex_unlock.

(** [__Registerer::__Registerer(function, key, file, line)]. *)
Definition Registerer (f : function_t) (key : string)
           (file line : string) : M unit :=
  mutex_lock ;;;
  modify_registry (EntryMap.emplace key (mkEntry file line f)) ;;;
  mutex_unlock.

(** Modelled from the spec: [REGISTER_ALIAS] (used in
    [registerer_example.cc], defined nowhere in the sources). "looks up
    [existingKey]'s Entry in the store and, if found, inserts a new Entry
    under [newKey] with the same factory (and a location describing the
    alias call site, not the original)"; inserting follows the store's
    registration contract (first registration wins), under the partition's
    lock like every other operation. *)
Definition Alias (existingKey newKey : string) (file line : string) : M unit :=
  mutex_lock ;;;
  reg <- get_registry ;;
  (match EntryMap.find existingKey reg with
   | Some e => modify_registry
                 (EntryMap.emplace newKey (mkEntry file line (function e)))
   | None => ret tt
   end) ;;;
  mutex_unlock.

(** The mutating operations, as a step language. *)
Inductive op : Type :=
| OpRegister (f : function_t) (key file line : string)
| OpInject (key : string) (f : function_t) (file line : string)
| OpUninject (key : string)
| OpAlias (existingKey newKey file line : string).

Definition exec_op (o : op) : M unit :=
  match o with
  | OpRegister f key file line => Registerer f key file line
  | OpInject key f file line => Injector key f file line
  | OpUninject key => Injector_destroy key
  | OpAlias k1 k2 file line => Alias k1 k2 file line
  end.

Definition step (o : op) (s : state) : state := final (exec_op o) s.

Definition run_ops (os : list op) (s : state) : state := fold_left (fun s o => step o s) os s.

(** A state is reachable when some sequence of operations builds it from
    the empty tables. *)
Definition reachable (s : state) : Prop := exists os, run_ops os initial = s.

End Registry.

Arguments initial {T A}.

Arguments GetEntry {T A} key args.
Arguments CanNew {T A} key args.
Arguments New {T A} key args.
Arguments GetKeys {T A}.
Arguments GetKeysWithLocations {T A}.
Arguments key_with_location {T A} kv.
Arguments Injector {T A} key f file line.
Arguments Injector_destroy {T A} key.
Arguments Registerer {T A} f key file line.
Arguments Alias {T A} existingKey newKey file line.
Arguments exec_op {T A} o.
Arguments step {T A} o s.
Arguments run_ops {T A} os s.
Arguments reachable {T A} s.
Arguments result {T A X} c s.
Arguments final {T A X} c s.
Arguments trace {T A X} c s.
Arguments mkEntry {T A} file line function.
Arguments mkState {T A} registry injectors.
Arguments registry {T A} s.
Arguments injectors {T A} s.
Arguments file {T A} e.
Arguments line {T A} e.
Arguments function {T A} e.
Arguments OpRegister {T A} f key file line.
Arguments OpInject {T A} key f file line.
Arguments OpUninject {T A} key.
Arguments OpAlias {T A} existingKey newKey file line.

(** ** The order of [std::less<std::string>] *)
Module KeyOrder.

Definition key_lt (a b : string) : Prop := String.compare a b = Lt.

Lemma ascii_compare_refl (c : ascii) : Ascii.compare c c = Eq.
Proof. unfold Ascii.compare. apply BinNat.N.compare_refl. Qed.

Lemma ascii_compare_lt_trans (a b c : ascii) :
  Ascii.compare a b = Lt -> Ascii.compare b c = Lt -> Ascii.compare a c = Lt.
Proof.
  unfold Ascii.compare. rewrite !BinNat.N.compare_lt_iff. lia.
Qed.

Lemma compare_refl (s : string) : String.compare s s = Eq.
Proof.
  induction s as [|c s IH]; simpl; [reflexivity|].
  now rewrite ascii_compare_refl.
Qed.

Lemma compare_eq (a b : string) : String.compare a b = Eq <-> a = b.
Proof.
  split; [apply String.compare_eq_iff|intros ->; apply compare_refl].
Qed.

Lemma key_lt_trans (a b c : string) : key_lt a b -> key_lt b c -> key_lt a c.
Proof.
  unfold key_lt. revert b c.
  induction a as [|x a IH]; intros [|y b] [|z c]; simpl; try discriminate; auto.
  destruct (Ascii.compare x y) eqn:E1; try discriminate;
  destruct (Ascii.compare y z) eqn:E2; try discriminate; intros H1 H2.
  - apply Ascii.compare_eq_iff in E1, E2. subst.
    rewrite ascii_compare_refl. eauto.
  - apply Ascii.compare_eq_iff in E1. subst. now rewrite E2.
  - apply Ascii.compare_eq_iff in E2. subst. now rewrite E1.
  - now rewrite (ascii_compare_lt_trans _ _ _ E1 E2).
Qed.

Lemma key_lt_irrefl (a : string) : ~ key_lt a a.
Proof. unfold key_lt. now rewrite compare_refl. Qed.

Lemma compare_gt_lt (a b : string) : String.compare a b = Gt -> key_lt b a.
Proof.
  unfold key_lt. intros H. rewrite String.compare_antisym, H. reflexivity.
Qed.

End KeyOrder.

(** ** Facts about the ordered association list *)
Module MapFacts.
Import EntryMap KeyOrder.

Section Facts.
Variable V : Type.
Implicit Types (m : EntryMap.t V) (v : V).

Lemma eqb_false_of_compare k k' :
  String.compare k k' <> Eq -> String.eqb k k' = false.
Proof.
  intros H. apply String.eqb_neq. intros ->. apply H, compare_refl.
Qed.

Lemma find_emplace_same k v m :
  find k m = None -> find k (emplace k v m) = Some v.
Proof.
  induction m as [|[k' v'] m IH]; simpl; intros H.
  - now rewrite String.eqb_refl.
  - destruct (String.eqb k k') eqn:Ek; [discriminate|].
    destruct (String.compare k k') eqn:C; simpl.
    + apply String.compare_eq_iff in C. subst. now rewrite String.eqb_refl in Ek.
    + now rewrite String.eqb_refl.
    + rewrite Ek. auto.
Qed.

Lemma find_emplace_other k k' v m :
  k <> k' -> find k' (emplace k v m) = find k' m.
Proof.
  intros Hne. induction m as [|[k'' v''] m IH]; simpl.
  - replace (String.eqb k' k) with false; [reflexivity|].
    symmetry. apply String.eqb_neq. auto.
  - destruct (String.compare k k''); simpl; auto.
    + replace (String.eqb k' k) with false; [reflexivity|].
      symmetry. apply String.eqb_neq. auto.
    + now rewrite IH.
Qed.


Lemma find_erase_same k m : find k (erase k m) = None.
Proof.
  induction m as [|[k' v'] m IH]; simpl; [reflexivity|].
  destruct (String.eqb k k') eqn:E; simpl; auto.
  now rewrite E.
Qed.

Lemma erase_absent k m : find k m = None -> erase k m = m.
Proof.
  induction m as [|[k' v'] m IH]; simpl; intros H; [reflexivity|].
  destruct (String.eqb k k') eqn:E; [discriminate|].
  simpl. now rewrite IH.
Qed.

Lemma erase_emplace_absent k v m :
  find k m = None -> erase k (emplace k v m) = m.
Proof.
  induction m as [|[k' v'] m IH]; simpl; intros H.
  - unfold erase. simpl. now rewrite String.eqb_refl.
  - destruct (String.eqb k k') eqn:E; [discriminate|].
    destruct (String.compare k k') eqn:C.
    + apply String.compare_eq_iff in C. subst. now rewrite String.eqb_refl in E.
    + unfold erase. simpl. rewrite String.eqb_refl. simpl. rewrite E. simpl.
      fold (erase k m). now rewrite erase_absent.
    + unfold erase. simpl. rewrite E. simpl. fold (erase k (emplace k v m)).
      now rewrite IH.
Qed.

Lemma find_in_keys k m : In k (keys m) <-> exists v, find k m = Some v.
Proof.
  induction m as [|[k' v'] m IH]; simpl.
  - split; [tauto|intros [v H]; discriminate].
  - destruct (String.eqb k k') eqn:E.
    + apply String.eqb_eq in E. subst. split; eauto.
    + apply String.eqb_neq in E. rewrite <- IH. split.
      * intros [H|H]; [congruence|assumption].
      * auto.
Qed.

Lemma emplace_hd k v x m :
  HdRel key_lt x (keys m) -> key_lt x k -> HdRel key_lt x (keys (emplace k v m)).
Proof.
  destruct m as [|[k' v'] m]; simpl; intros H Hx.
  - now constructor.
  - inversion H as [|? ? Hxk]; subst.
    destruct (String.compare k k'); simpl; constructor; assumption.
Qed.

Lemma emplace_sorted k v m :
  Sorted key_lt (keys m) -> Sorted key_lt (keys (emplace k v m)).
Proof.
  induction m as [|[k' v'] m IH]; simpl; intros H.
  - repeat constructor.
  - inversion H as [|? ? Hs Hhd]; subst.
    destruct (String.compare k k') eqn:C; simpl.
    + exact H.
    + constructor; [exact H|]. now constructor.
    + constructor; [now apply IH|].
      apply emplace_hd; [exact Hhd|]. now apply compare_gt_lt.
Qed.

Lemma erase_sorted k m :
  Sorted key_lt (keys m) -> Sorted key_lt (keys (erase k m)).
Proof.
  intros H. apply StronglySorted_Sorted.
  apply Sorted_StronglySorted in H; [|intros a b c; apply key_lt_trans].
  unfold erase, keys in *.
  induction m as [|[k' v'] m IH]; simpl in *; [constructor|].
  inversion H as [|? ? Hs Hall]; subst.
  destruct (negb (String.eqb k k')); simpl; auto.
  constructor; auto.
  apply Forall_forall. intros x Hx.
  rewrite Forall_forall in Hall. apply Hall.
  apply in_map_iff in Hx. destruct Hx as [[a b] [<- Ha]].
  apply filter_In in Ha. apply in_map_iff. exists (a, b). tauto.
Qed.

End Facts.
End MapFacts.

(** ** Running the operations *)
Module Ops.
Import EntryMap KeyOrder MapFacts.

Ltac run_op :=
  unfold result, final, trace, New, CanNew, GetEntry, GetKeys,
    GetKeysWithLocations, Injector, Injector_destroy, Registerer, Alias,
    bind, ret, mutex_lock, mutex_unlock, get_registry, get_injectors,
    modify_registry, modify_injectors; simpl.

Section Lemmas.
Context {T A : Type}.
Implicit Types (s : state T A) (a : A) (k : string).

Lemma New_spec k a s :
  result (New k a) s =
    match find k (injectors s) with
    | Some e => function e a
    | None => match find k (registry s) with
              | Some e => function e a
              | None => None
              end
    end.
Proof.
  run_op. destruct (find k (injectors s)); simpl; [reflexivity|].
  destruct (find k (registry s)); reflexivity.
Qed.

Lemma CanNew_spec k a s :
  result (CanNew k a) s =
    match find k (injectors s) with
    | Some _ => true
    | None => match find k (registry s) with
              | Some _ => true
              | None => false
              end
    end.
Proof.
  run_op. destruct (find k (injectors s)); simpl; [reflexivity|].
  destruct (find k (registry s)); reflexivity.
Qed.

Lemma New_final k a s : final (New k a) s = s.
Proof.
  run_op. destruct (find k (injectors s)); simpl; [reflexivity|].
  destruct (find k (registry s)); reflexivity.
Qed.

Lemma CanNew_final k a s : final (CanNew k a) s = s.
Proof.
  run_op. destruct (find k (injectors s)); simpl; [reflexivity|].
  destruct (find k (registry s)); reflexivity.
Qed.

Lemma Registerer_final f k fl ln s :
  final (Registerer f k fl ln) s =
    mkState (emplace k (mkEntry fl ln f) (registry s)) (injectors s).
Proof. reflexivity. Qed.

Lemma Injector_final k f fl ln s :
  final (Injector k f fl ln) s =
    mkState (registry s) (emplace k (mkEntry fl ln f) (injectors s)).
Proof. reflexivity. Qed.

Lemma Injector_destroy_final k s :
  final (Injector_destroy k) s = mkState (registry s) (erase k (injectors s)).
Proof. reflexivity. Qed.

Lemma Alias_final k1 k2 fl ln s :
  final (Alias k1 k2 fl ln) s =
    match find k1 (registry s) with
    | Some e => mkState (emplace k2 (mkEntry fl ln (function e)) (registry s))
                        (injectors s)
    | None => s
    end.
Proof.
  run_op. destruct (find k1 (registry s)); reflexivity.
Qed.

Lemma GetKeys_result s : result GetKeys s = keys (registry s).
Proof. reflexivity. Qed.

Lemma GetKeysWithLocations_result s :
  result GetKeysWithLocations s = map key_with_location (registry s).
Proof. reflexivity. Qed.

(** An override installed for a key without one is what [New] uses. *)
Lemma Injector_fresh_New k f fl ln a s :
  find k (injectors s) = None ->
  result (New k a) (final (Injector k f fl ln) s) = f a.
Proof.
  intros H. rewrite New_spec, Injector_final. simpl.
  now rewrite find_emplace_same.
Qed.

(** Every operation except [New] releases exactly what it acquires. *)
Lemma mutex_ok_others k a f fl ln k2 s :
  mutex_ok (trace (CanNew k a) s) = true /\
  mutex_ok (trace GetKeys s) = true /\
  mutex_ok (trace GetKeysWithLocations s) = true /\
  mutex_ok (trace (Injector k f fl ln) s) = true /\
  mutex_ok (trace (Injector_destroy k) s) = true /\
  mutex_ok (trace (Registerer f k fl ln) s) = true /\
  mutex_ok (trace (Alias k k2 fl ln) s) = true.
Proof.
  run_op. repeat split.
  - destruct (find k (injectors s)); simpl; [reflexivity|].
    destruct (find k (registry s)); reflexivity.
  - destruct (find k (registry s)); reflexivity.
Qed.

(** Sortedness of the store is preserved by every step. *)
Lemma step_sorted (o : op T A) s :
  Sorted key_lt (keys (registry s)) ->
  Sorted key_lt (keys (registry (step o s))).
Proof.
  intros H. destruct o; unfold step, exec_op.
  - rewrite Registerer_final. simpl. now apply emplace_sorted.
  - rewrite Injector_final. exact H.
  - rewrite Injector_destroy_final. exact H.
  - rewrite Alias_final. destruct (find existingKey (registry s)); simpl; auto.
    now apply emplace_sorted.
Qed.

Lemma run_ops_sorted (os : list (op T A)) s :
  Sorted key_lt (keys (registry s)) ->
  Sorted key_lt (keys (registry (run_ops os s))).
Proof.
  unfold run_ops. revert s.
  induction os as [|o os IH]; simpl; intros s H; auto.
  apply IH. now apply step_sorted.
Qed.

Lemma reachable_sorted s :
  reachable s -> Sorted key_lt (keys (registry s)).
Proof.
  intros [os <-]. apply run_ops_sorted. constructor.
Qed.

End Lemmas.
End Ops.

(** * The claims *)
Module Claims.
Import EntryMap KeyOrder MapFacts Ops.

(** Concrete partitions used by the witnesses: [Registry<nat*>] with no
    constructor arguments ([A = unit]). *)
Definition factory_of (n : nat) : function_t nat unit := fun _ => Some n.
Definition null_factory : function_t nat unit := fun _ => None.

(** C1: [New(key, args...)] returns what the override factory for [key]
    produces when one is installed, otherwise what the store factory
    produces when the store has [key], otherwise the null pointer; and
    [CanNew] is false exactly in that last, absent-key case. The tables are
    left unchanged. *)
Theorem New_override_then_store {T A : Type} (key : string) (args : A)
        (s : state T A) :
  result (New key args) s =
    match find key (injectors s) with
    | Some e => function e args
    | None => match find key (registry s) with
              | Some e => function e args
              | None => None
              end
    end /\
  result (CanNew key args) s =
    match find key (injectors s) with
    | Some _ => true
    | None => match find key (registry s) with
              | Some _ => true
              | None => false
              end
    end /\
  final (New key args) s = s.
Proof.
  split; [apply New_spec|]. split; [apply CanNew_spec|apply New_final].
Qed.



(** C7: [GetKeys()] returns the store's keys, exactly those with a store
    entry (override-only keys are absent), and [GetKeysWithLocations()]
    returns one ["file:line: key"] string per store entry. *)
Theorem GetKeys_lists_store {T A : Type} (s : state T A) :
  result GetKeys s = map fst (registry s) /\
  (forall k, In k (result GetKeys s) <-> exists e, find k (registry s) = Some e) /\
  result GetKeysWithLocations s =
    map (fun kv => (file (snd kv) ++ ":" ++ line (snd kv) ++ ": " ++ fst kv)%string)
        (registry s).
Proof.
  split; [reflexivity|]. split; [|reflexivity].
  intros k. rewrite GetKeys_result. apply find_in_keys.
Qed.

(** C9: when the factory that [New] selects for [key] returns the null
    pointer for [args], [CanNew(key, args)] is true while [New(key, args)]
    is null. *)
Theorem CanNew_true_New_null {T A : Type} (s : state T A) (key : string)
        (args : A) (e : Entry T A)
        (Hsel : find key (injectors s) = Some e \/
                (find key (injectors s) = None /\ find key (registry s) = Some e))
        (Hnull : function e args = None) :
  result (CanNew key args) s = true /\ result (New key args) s = None.
Proof.
  rewrite CanNew_spec, New_spec.
  destruct Hsel as [H|[H1 H2]].
  - now rewrite H.
  - now rewrite H1, H2.
Qed.

Definition null_state : state nat unit :=
  run_ops [OpRegister null_factory "Null" "null.cc" "3"] initial.

Lemma CanNew_true_New_null_witness :
  result (CanNew "Null" tt) null_state = true /\
  result (New "Null" tt) null_state = None.
Proof.
  apply (CanNew_true_New_null null_state "Null" tt
           (mkEntry "null.cc" "3" null_factory)).
  - right. split; reflexivity.
  - reflexivity.
Defined.

(** C10: in every reachable state the keys returned by [GetKeys()] are in
    strictly ascending [std::string] order, hence without duplicates, and
    [GetKeysWithLocations()] lists the store's entries in that same order. *)
Theorem GetKeys_sorted {T A : Type} (s : state T A) (Hreach : reachable s) :
  StronglySorted key_lt (result GetKeys s) /\
  NoDup (result GetKeys s) /\
  result GetKeys s = map fst (registry s) /\
  result GetKeysWithLocations s = map key_with_location (registry s).
Proof.
  assert (Hs : StronglySorted key_lt (result GetKeys s)).
  { rewrite GetKeys_result. apply Sorted_StronglySorted.
    - intros x y z. apply key_lt_trans.
    - now apply reachable_sorted. }
  split; [exact Hs|]. split; [|split; reflexivity].
  clear Hreach. induction Hs as [|x l Hs IH Hall]; constructor; auto.
  intros Hin. rewrite Forall_forall in Hall.
  apply (key_lt_irrefl x), Hall, Hin.
Qed.

Definition vehicles_ops : list (op nat unit) :=
  [OpRegister (factory_of 140) "Truck" "t.cc" "97";
   OpRegister (factory_of 60) "Car" "t.cc" "85";
   OpRegister (factory_of 10) "Motorbike" "t.cc" "110"].

Example vehicles_keys :
  result GetKeys (run_ops vehicles_ops initial) = ["Car"; "Motorbike"; "Truck"].
Proof. reflexivity. Qed.

Example vehicles_keys_with_locations :
  result GetKeysWithLocations (run_ops vehicles_ops initial) =
    ["t.cc:85: Car"; "t.cc:110: Motorbike"; "t.cc:97: Truck"].
Proof. reflexivity. Qed.

Lemma GetKeys_sorted_witness :
  reachable (run_ops vehicles_ops initial) /\
  StronglySorted key_lt (result GetKeys (run_ops vehicles_ops initial)).
Proof.
  assert (H : reachable (run_ops vehicles_ops initial))
    by (exists vehicles_ops; reflexivity).
  split; [exact H|].
  apply (proj1 (GetKeys_sorted (run_ops vehicles_ops initial) H)).
Defined.

(** Keys an operation writes into a table (the new key of an alias). *)
Definition op_keys_nonempty {T A : Type} (o : op T A) : bool :=
  match o with
  | OpRegister _ key _ _ => negb (String.eqb key "")
  | OpInject key _ _ _ => negb (String.eqb key "")
  | OpUninject _ => true
  | OpAlias _ newKey _ _ => negb (String.eqb newKey "")
  end.

Definition keys_nonempty {T A : Type} (s : state T A) : Prop :=
  Forall (fun k => k <> "") (keys (registry s)) /\
  Forall (fun k => k <> "") (keys (injectors s)).

Lemma emplace_keys_nonempty {V : Type} k (v : V) m :
  k <> "" -> Forall (fun k => k <> "") (keys m) ->
  Forall (fun k => k <> "") (keys (emplace k v m)).
Proof.
  intros Hk. induction m as [|[k' v'] m IH]; simpl; intros H.
  - now constructor.
  - inversion H; subst.
    destruct (String.compare k k'); simpl; repeat constructor; auto.
Qed.

Lemma erase_keys_nonempty {V : Type} k (m : EntryMap.t V) :
  Forall (fun k => k <> "") (keys m) ->
  Forall (fun k => k <> "") (keys (erase k m)).
Proof.
  unfold erase, keys. induction m as [|[k' v'] m IH]; simpl; intros H; auto.
  inversion H; subst.
  destruct (negb (String.eqb k k')); simpl; auto.
Qed.

Lemma step_keys_nonempty {T A : Type} (o : op T A) (s : state T A) :
  op_keys_nonempty o = true -> keys_nonempty s -> keys_nonempty (step o s).
Proof.
  unfold keys_nonempty, step, exec_op.
  intros Ho [Hr Hi]. destruct o; simpl in Ho;
    try (apply negb_true_iff, String.eqb_neq in Ho).
  - rewrite Registerer_final. simpl. split; auto. now apply emplace_keys_nonempty.
  - rewrite Injector_final. simpl. split; auto. now apply emplace_keys_nonempty.
  - rewrite Injector_destroy_final. simpl. split; auto. now apply erase_keys_nonempty.
  - rewrite Alias_final. destruct (find existingKey (registry s)); simpl; auto.
    split; auto. now apply emplace_keys_nonempty.
Qed.

(** C8 (as stated, refuted): nothing rejects the empty key, so a reachable
    state can hold [""] in the store. *)
Lemma keys_nonempty_counterexample :
  ~ (forall s : state nat unit, reachable s ->
       forall k, In k (keys (registry s)) \/ In k (keys (injectors s)) -> k <> "").
Proof.
  intros H.
  apply (H (run_ops [OpRegister (factory_of 0) "" "x.cc" "1"] initial)
           (ex_intro _ _ eq_refl) "").
  - left. simpl. auto.
  - reflexivity.
Qed.

(** C8 (amended): the tables hold only non-empty keys when every
    registration, injector and alias was given a non-empty key. *)
Theorem keys_nonempty_preserved {T A : Type} (os : list (op T A))
        (Hops : forallb op_keys_nonempty os = true) :
  forall k, In k (keys (registry (run_ops os initial))) \/
            In k (keys (injectors (run_ops os initial))) -> k <> "".
Proof.
  assert (Hinv : keys_nonempty (run_ops os (@initial T A))).
  { unfold run_ops.
    assert (H0 : keys_nonempty (@initial T A)) by (split; constructor).
    revert H0. generalize (@initial T A).
    induction os as [|o os IH]; simpl in *; intros s0 H0; auto.
    apply andb_true_iff in Hops. destruct Hops as [Ho Hos].
    apply IH; auto. now apply step_keys_nonempty. }
  destruct Hinv as [Hr Hi]. rewrite Forall_forall in Hr, Hi.
  intros k [H|H]; auto.
Qed.

Lemma keys_nonempty_preserved_witness :
  forallb op_keys_nonempty vehicles_ops = true /\
  (forall k, In k (keys (registry (run_ops vehicles_ops initial))) \/
             In k (keys (injectors (run_ops vehicles_ops initial))) -> k <> "").
Proof.
  split; [reflexivity|].
  apply (keys_nonempty_preserved vehicles_ops). reflexivity.
Defined.

(** A partition where ["V4"] is registered (factory 1) and overridden by a
    live injector (factory 2). *)
Definition v4_state : state nat unit :=
  run_ops [OpRegister (factory_of 1) "V4" "t.cc" "25";
           OpInject "V4" (factory_of 2) "undefined" "undefined"] initial.

(** C3 (code defect): a second [Injector] for a key that already has one
    does not install its factory: [emplace] keeps the first, so [New] still
    uses the first override and the state is unchanged. *)
Theorem second_injector_ignored :
  final (Injector "V4" (factory_of 3) "undefined" "undefined") v4_state = v4_state /\
  result (New "V4" tt)
    (final (Injector "V4" (factory_of 3) "undefined" "undefined") v4_state) = Some 2.
Proof. split; reflexivity. Qed.

(** C6 (as stated, refuted): installing and disposing an override for a key
    that already has one does not restore [New]'s previous behaviour. *)
Lemma injector_roundtrip_counterexample :
  ~ (forall (s : state nat unit) key f fl ln args,
       result (New key args)
         (final (Injector_destroy key) (final (Injector key f fl ln) s)) =
       result (New key args) s).
Proof.
  intros H.
  specialize (H v4_state "V4" (factory_of 3) "undefined" "undefined" tt).
  vm_compute in H. discriminate H.
Qed.

(** C6 (amended): disposal always erases the key from the override table;
    when the key had no override before, install then dispose gives back
    the original state, so [New] and [CanNew] behave as before. *)
Theorem injector_roundtrip {T A : Type} (s : state T A) (key : string)
        (f : function_t T A) (fl ln : string)
        (Hnone : find key (injectors s) = None) :
  let s' := final (Injector_destroy key) (final (Injector key f fl ln) s) in
  s' = s /\
  (forall args, result (New key args) s' = result (New key args) s /\
                result (CanNew key args) s' = result (CanNew key args) s) /\
  (forall s0 : state T A, find key (injectors (final (Injector_destroy key) s0)) = None).
Proof.
  cbv zeta. rewrite Injector_destroy_final, Injector_final. simpl.
  rewrite erase_emplace_absent by exact Hnone.
  assert (Hs : {| registry := registry s; injectors := injectors s |} = s)
    by (destruct s; reflexivity).
  rewrite Hs. split; [reflexivity|]. split; [auto|].
  intros s0. exact (find_erase_same _ key (injectors s0)).
Qed.

Lemma injector_roundtrip_witness :
  find "Car" (injectors (run_ops vehicles_ops initial)) = None /\
  final (Injector_destroy "Car")
        (final (Injector "Car" (factory_of 0) "undefined" "undefined")
               (run_ops vehicles_ops initial)) = run_ops vehicles_ops initial.
Proof.
  split; [reflexivity|].
  apply (injector_roundtrip (run_ops vehicles_ops initial) "Car"
           (factory_of 0) "undefined" "undefined").
  reflexivity.
Defined.

(** A partition where ["Rectangle"] is registered (factory 1) and
    overridden by a live injector (factory 0). *)
Definition rect_state : state nat unit :=
  run_ops [OpRegister (factory_of 1) "Rectangle" "e.cc" "22";
           OpInject "Rectangle" (factory_of 0) "undefined" "undefined"] initial.

(** C2 (as stated, refuted): the alias copies the store entry, so when an
    override shadows the existing key, the new key does not behave like
    the existing key did at alias time. *)
Lemma alias_counterexample :
  ~ (forall (s : state nat unit) existingKey newKey fl ln args,
       find existingKey (registry s) <> None ->
       result (New newKey args) (final (Alias existingKey newKey fl ln) s) =
       result (New existingKey args) s).
Proof.
  intros H.
  specialize (H rect_state "Rectangle" "Rect" "e.cc" "41" tt).
  vm_compute in H. specialize (H ltac:(discriminate)). discriminate H.
Qed.

(** C2 (amended): aliasing an unregistered [existingKey] leaves the state
    unchanged. Aliasing a registered one, when [newKey] is not yet in the
    store, adds under [newKey] the factory of [existingKey]'s store entry
    (whatever overrides are installed) with the alias call site's location
    and leaves the override table as it was; when moreover neither key has
    an override, [New] and [CanNew] on [newKey] then behave as they did on
    [existingKey]. *)
Theorem alias_copies_store_entry {T A : Type} (s : state T A)
        (existingKey newKey fl ln : string) :
  let s' := final (Alias existingKey newKey fl ln) s in
  (find existingKey (registry s) = None -> s' = s) /\
  (forall e, find existingKey (registry s) = Some e ->
   find newKey (registry s) = None ->
   find newKey (registry s') = Some (mkEntry fl ln (function e)) /\
   injectors s' = injectors s /\
   (find existingKey (injectors s) = None -> find newKey (injectors s) = None ->
    forall args, result (New newKey args) s' = result (New existingKey args) s /\
                 result (CanNew newKey args) s' = result (CanNew existingKey args) s)).
Proof.
  cbv zeta. rewrite Alias_final. split.
  - intros Hex. now rewrite Hex.
  - intros e He Hfresh. rewrite He. simpl.
    rewrite find_emplace_same by exact Hfresh.
    split; [reflexivity|]. split; [reflexivity|].
    intros Hinj1 Hinj2 args.
    rewrite !New_spec, !CanNew_spec. simpl.
    rewrite Hinj1, Hinj2, find_emplace_same by exact Hfresh.
    rewrite He. split; reflexivity.
Qed.

Definition shapes_state : state nat unit :=
  run_ops [OpRegister (factory_of 1) "Rectangle" "e.cc" "22"] initial.

Lemma alias_copies_store_entry_witness :
  result (New "Rect" tt) (final (Alias "Rectangle" "Rect" "e.cc" "41") shapes_state) =
  result (New "Rectangle" tt) shapes_state.
Proof.
  destruct (alias_copies_store_entry shapes_state "Rectangle" "Rect" "e.cc" "41")
    as [_ Hcopy].
  assert (Hex : find "Rectangle" (registry shapes_state) =
                Some (mkEntry "e.cc" "22" (factory_of 1))) by (vm_compute; reflexivity).
  assert (Hfresh : find "Rect" (registry shapes_state) = None)
    by (vm_compute; reflexivity).
  assert (Hinj1 : find "Rectangle" (injectors shapes_state) = None)
    by (vm_compute; reflexivity).
  assert (Hinj2 : find "Rect" (injectors shapes_state) = None)
    by (vm_compute; reflexivity).
  destruct (Hcopy _ Hex Hfresh) as (_ & _ & Hnew).
  exact (proj1 (Hnew Hinj1 Hinj2 tt)).
Defined.

(** C4 (code defect): [New] releases the mutex twice, once inside
    [GetEntry] and once more after calling the factory, so its trace
    unlocks a mutex it no longer holds, whatever the state. *)
Theorem New_unlocks_twice {T A : Type} (key : string) (args : A) (s : state T A) :
  mutex_ok (trace (New key args) s) = false /\
  exists pre, trace (New key args) s = pre ++ [Unlock; Unlock].
Proof.
  run_op. destruct (find key (injectors s)); simpl.
  - split; [reflexivity|]. eexists [Lock; Touch]. reflexivity.
  - destruct (find key (registry s)); simpl;
      (split; [reflexivity|]; eexists [Lock; Touch; Touch]; reflexivity).
Qed.

End Claims.

(** * Static registration and the example program *)
Module Registration.
Import EntryMap.

(** [TypeRegisterer<Trait, base_type, derived_type, Args...>::instance]:
    a [__Registerer] whose function is
    [[](Args... args) -> base_type * { return new derived_type(args...); }]
    ([new] never yields the null pointer) and whose key, file and line come
    from the trait. *)
Definition TypeRegisterer {T A : Type} (derived_new : A -> T)
           (key file line : string) : M T A unit :=
  Registerer (fun args => Some (derived_new args)) key file line.

(** [REGISTER_AT(LINE, KEY, TYPE, ARGS...)] written in file [FILE]: the
    trait returns [KEY], [__FILE__] and [STRINGIFY(LINE)], and the
    [TypeRegisterer] instance runs at static initialisation. [LINE] is the
    stringified line number. *)
Definition REGISTER_AT {T A : Type} (LINE KEY FILE : string)
           (derived_new : A -> T) : M T A unit :=
  TypeRegisterer derived_new KEY FILE LINE.

(** One [REGISTER] declaration: line, key, file and the constructor. *)
Definition declaration (T A : Type) : Type := string * string * string * (A -> T).

(** The static initialisation of a partition holding only [REGISTER]
    declarations, run in some order from the empty tables. *)
Definition static_init {T A : Type} (decls : list (declaration T A)) : state T A :=
  fold_left (fun s '(LINE, KEY, FILE, d) => final (REGISTER_AT LINE KEY FILE d) s)
            decls initial.

(** [std::cerr << '\n'] *)
Definition newline : string := String (ascii_of_nat 10) EmptyString.

Section Example.
(** [Shape] and the text its virtual [Draw()] writes to [std::cout]. *)
Variable Shape : Type.
Variable Draw : Shape -> string.

(** The lines [main] writes to [std::cerr] for an unknown [key]. *)
Definition unknown_key_report (su : state Shape unit)
           (ss : state Shape string) (key : string) : list string :=
  ("No '" ++ key ++ "' shape registered. Registered are" ++ newline)%string ::
  map (fun k => ("  " ++ k ++ newline)%string) (result GetKeys su) ++
  map (fun k => ("  " ++ k ++ "(string)" ++ newline)%string) (result GetKeys ss).

(** The loop of [main] in [registerer_example.cc] over
    [argv[1..argc-1]] taken by pairs [(key, params)]: try
    [Registry<Shape, const std::string &>], then [Registry<Shape>], else
    report and return [-1]. The result is the exit code, the [Draw()]
    outputs and the [std::cerr] lines; [None] is the null dereference of
    [New(...)->Draw()] when a factory returns the null pointer. The queries
    used here leave both partitions unchanged, so the tables are passed
    along as they are. *)
Fixpoint main_loop (ss : state Shape string) (su : state Shape unit)
         (args : list string) : option (Z * list string * list string) :=
  match args with
  | key :: params :: rest =>
      if result (CanNew key params) ss then
        match result (New key params) ss with
        | Some sh =>
            option_map (fun '(code, out, err) => (code, Draw sh :: out, err))
                       (main_loop ss su rest)
        | None => None
        end
      else if result (CanNew key tt) su then
        match result (New key tt) su with
        | Some sh =>
            option_map (fun '(code, out, err) => (code, Draw sh :: out, err))
                       (main_loop ss su rest)
        | None => None
        end
      else Some ((-1)%Z, [], unknown_key_report su ss key)
  | _ => Some (0%Z, [], [])
  end.

(** The [(key, params)] pairs the loop visits. *)
Fixpoint arg_pairs (args : list string) : list (string * string) :=
  match args with
  | key :: params :: rest => (key, params) :: arg_pairs rest
  | _ => []
  end.

(** A key the loop accepts. *)
Definition known (ss : state Shape string) (su : state Shape unit)
           (kp : string * string) : bool :=
  result (CanNew (fst kp) (snd kp)) ss || result (CanNew (fst kp) tt) su.

End Example.
Arguments main_loop {Shape} Draw ss su args.
Arguments unknown_key_report {Shape} su ss key.
Arguments known {Shape} ss su kp.

(** [New] never returns the null pointer for a key that [CanNew] accepts. *)
Definition never_null {T A : Type} (s : state T A) : Prop :=
  forall key args, result (CanNew key args) s = true -> result (New key args) s <> None.

End Registration.

(** * Further properties of the registry *)
Module Extras.
Import EntryMap KeyOrder MapFacts Ops Registration.

Section MapLemmas.
Variable V : Type.
Implicit Types (m : EntryMap.t V) (v : V).

Lemma find_In k v m : find k m = Some v -> In (k, v) m.
Proof.
  induction m as [|[k' v'] m IH]; simpl; [discriminate|].
  destruct (String.eqb k k') eqn:E; auto.
  apply String.eqb_eq in E. subst. intros H. inversion H. auto.
Qed.

Lemma In_keys_emplace k v m k' :
  In k' (keys (emplace k v m)) <-> k' = k \/ In k' (keys m).
Proof.
  induction m as [|[k'' v''] m IH]; simpl.
  - intuition congruence.
  - destruct (String.compare k k'') eqn:C; simpl.
    + apply String.compare_eq_iff in C. subst. intuition congruence.
    + intuition congruence.
    + rewrite IH. intuition congruence.
Qed.

Lemma length_emplace_fresh k v m :
  find k m = None -> length (emplace k v m) = S (length m).
Proof.
  induction m as [|[k' v'] m IH]; simpl; intros H; [reflexivity|].
  destruct (String.eqb k k') eqn:E; [discriminate|].
  destruct (String.compare k k') eqn:C; simpl.
  - apply String.compare_eq_iff in C. subst. now rewrite String.eqb_refl in E.
  - reflexivity.
  - now rewrite IH.
Qed.


Lemma emplace_Forall (P : string * V -> Prop) k v m :
  P (k, v) -> Forall P m -> Forall P (emplace k v m).
Proof.
  intros Hp. induction m as [|[k' v'] m IH]; simpl; intros H.
  - now constructor.
  - inversion H; subst.
    destruct (String.compare k k'); repeat constructor; auto.
Qed.

End MapLemmas.

(** ** Mutex discipline and read-only queries *)

Definition event_eq_dec (x y : event) : {x = y} + {x <> y}.
Proof. decide equality. Defined.

(** A trace that takes the mutex exactly once and releases it exactly once,
    touching the tables only in between. *)
Definition locked_once (tr : list event) : Prop :=
  mutex_ok tr = true /\ count_occ event_eq_dec tr Lock = 1 /\
  count_occ event_eq_dec tr Unlock = 1.

(** X: every operation other than [New] locks the partition mutex exactly
    once, touches the tables only while holding it and releases it exactly
    once. *)
Theorem balanced_except_New {T A : Type} (key : string) (args : A)
        (f : function_t T A) (fl ln : string) (s : state T A) :
  locked_once (trace (CanNew key args) s) /\
  locked_once (trace GetKeys s) /\
  locked_once (trace GetKeysWithLocations s) /\
  locked_once (trace (Injector key f fl ln) s) /\
  locked_once (trace (Injector_destroy key) s) /\
  locked_once (trace (Registerer f key fl ln) s).
Proof.
  unfold locked_once. run_op.
  destruct (find key (injectors s)); simpl;
    [|destruct (find key (registry s)); simpl];
    repeat split.
Qed.

(** X: the queries never modify the tables. *)
Theorem queries_read_only {T A : Type} (key : string) (args : A) (s : state T A) :
  final (New key args) s = s /\ final (CanNew key args) s = s /\
  final GetKeys s = s /\ final GetKeysWithLocations s = s.
Proof.
  split; [apply New_final|]. split; [apply CanNew_final|]. split; reflexivity.
Qed.

(** X: when [CanNew] is false, [New] returns the null pointer. *)
Theorem CanNew_false_New_null {T A : Type} (key : string) (args : A)
        (s : state T A) (Hno : result (CanNew key args) s = false) :
  result (New key args) s = None.
Proof.
  rewrite CanNew_spec in Hno. rewrite New_spec.
  destruct (find key (injectors s)); [discriminate|].
  destruct (find key (registry s)); [discriminate|reflexivity].
Qed.

Lemma CanNew_false_New_null_witness :
  result (CanNew "V16" tt) (run_ops Claims.vehicles_ops initial) = false /\
  result (New "V16" tt) (run_ops Claims.vehicles_ops initial) = None.
Proof.
  split; [reflexivity|]. apply CanNew_false_New_null. reflexivity.
Defined.

(** ** Injectors *)

(** X: an [Injector] for a key with no override makes [New] use its
    factory and [CanNew] true, whether or not the store has the key. *)
Theorem Injector_takes_effect {T A : Type} (s : state T A) (key : string)
        (f : function_t T A) (fl ln : string) (args : A)
        (Hnone : find key (injectors s) = None) :
  result (New key args) (final (Injector key f fl ln) s) = f args /\
  result (CanNew key args) (final (Injector key f fl ln) s) = true.
Proof.
  split; [now apply Injector_fresh_New|].
  rewrite CanNew_spec, Injector_final. simpl.
  now rewrite find_emplace_same.
Qed.

Lemma Injector_takes_effect_witness :
  result (New "V4" tt)
    (final (Injector "V4" (Claims.factory_of 123) "undefined" "undefined")
           (run_ops [OpRegister (Claims.factory_of 5) "V4" "t.cc" "25"] initial))
  = Some 123.
Proof.
  apply (Injector_takes_effect
           (run_ops [OpRegister (Claims.factory_of 5) "V4" "t.cc" "25"] initial)
           "V4" (Claims.factory_of 123) "undefined" "undefined" tt).
  reflexivity.
Defined.





(** X: injectors never show in the key listings: installing or disposing
    one leaves [GetKeys] and [GetKeysWithLocations] unchanged. *)
Theorem injectors_not_listed {T A : Type} (s : state T A) (key : string)
        (f : function_t T A) (fl ln : string) :
  result GetKeys (final (Injector key f fl ln) s) = result GetKeys s /\
  result GetKeysWithLocations (final (Injector key f fl ln) s) =
    result GetKeysWithLocations s /\
  result GetKeys (final (Injector_destroy key) s) = result GetKeys s /\
  result GetKeysWithLocations (final (Injector_destroy key) s) =
    result GetKeysWithLocations s.
Proof. repeat split. Qed.

Lemma find_emplace_cases {V : Type} k (v : V) m :
  find k (emplace k v m) = Some v \/ find k (emplace k v m) = find k m.
Proof.
  induction m as [|[k' v'] m IH]; simpl.
  - left. now rewrite String.eqb_refl.
  - destruct (String.compare k k') eqn:C; simpl.
    + right. reflexivity.
    + left. now rewrite String.eqb_refl.
    + rewrite eqb_false_of_compare by congruence. exact IH.
Qed.

(** ** Registration *)

(** X: after a registration for [key], [GetKeys] lists exactly the keys it
    listed before plus [key]; when [key] was new, the list grows by one. *)
Theorem Registerer_listing {T A : Type} (s : state T A) (f : function_t T A)
        (key fl ln k : string) :
  (In k (result GetKeys (final (Registerer f key fl ln) s)) <->
   k = key \/ In k (result GetKeys s)) /\
  (find key (registry s) = None ->
   length (result GetKeys (final (Registerer f key fl ln) s)) =
   S (length (result GetKeys s))).
Proof.
  rewrite !GetKeys_result, Registerer_final. simpl. split.
  - apply In_keys_emplace.
  - intros H. unfold keys. rewrite !length_map. now apply length_emplace_fresh.
Qed.

(** X: a registration for [key] does not change [New] or [CanNew] for any
    other key, nor for [key] itself while an override for it is installed. *)
Theorem Registerer_isolation {T A : Type} (s : state T A) (f : function_t T A)
        (key fl ln k : string) (args : A)
        (Hk : k <> key \/ find key (injectors s) <> None) :
  result (New k args) (final (Registerer f key fl ln) s) = result (New k args) s /\
  result (CanNew k args) (final (Registerer f key fl ln) s) = result (CanNew k args) s.
Proof.
  rewrite !New_spec, !CanNew_spec, Registerer_final. simpl.
  destruct Hk as [Hne|Hinj].
  - rewrite find_emplace_other by congruence. split; reflexivity.
  - destruct (find key (injectors s)) as [e|] eqn:He; [|congruence].
    destruct (String.eqb k key) eqn:E.
    + apply String.eqb_eq in E. subst. rewrite He. split; reflexivity.
    + apply String.eqb_neq in E. rewrite find_emplace_other by congruence.
      split; reflexivity.
Qed.

Lemma Registerer_isolation_witness :
  result (New "V4" tt)
    (final (Registerer (Claims.factory_of 7) "V4" "t.cc" "40") Claims.v4_state) = Some 2.
Proof.
  assert (Hinj : find "V4" (injectors Claims.v4_state) <> None)
    by (vm_compute; discriminate).
  rewrite (proj1 (Registerer_isolation Claims.v4_state (Claims.factory_of 7)
                    "V4" "t.cc" "40" "V4" tt (or_intror Hinj))).
  vm_compute. reflexivity.
Defined.

(** X: a [REGISTER(KEY, ...)] declaration on [LINE] of [FILE], for a key not
    yet registered nor overridden, makes [New(KEY, args...)] build the
    derived class, [CanNew] true, and [GetKeysWithLocations()] list
    ["FILE:LINE: KEY"]. *)
Theorem REGISTER_AT_constructs {T A : Type} (s : state T A)
        (LINE KEY FILE : string) (derived_new : A -> T) (args : A)
        (Hreg : find KEY (registry s) = None) (Hinj : find KEY (injectors s) = None) :
  let s' := final (REGISTER_AT LINE KEY FILE derived_new) s in
  result (New KEY args) s' = Some (derived_new args) /\
  result (CanNew KEY args) s' = true /\
  In (FILE ++ ":" ++ LINE ++ ": " ++ KEY)%string (result GetKeysWithLocations s').
Proof.
  cbv zeta. unfold REGISTER_AT, TypeRegisterer.
  rewrite New_spec, CanNew_spec, GetKeysWithLocations_result, Registerer_final.
  simpl. rewrite Hinj. rewrite find_emplace_same by exact Hreg.
  split; [reflexivity|]. split; [reflexivity|].
  apply in_map_iff.
  exists (KEY, mkEntry FILE LINE (fun a => Some (derived_new a))).
  split; [reflexivity|].
  apply find_In. now apply find_emplace_same.
Qed.

Lemma REGISTER_AT_constructs_witness :
  In "registerer_test.cc:25: V4"
    (result GetKeysWithLocations
       (final (REGISTER_AT "25" "V4" "registerer_test.cc" (fun _ : unit => 5)) initial)).
Proof.
  apply (REGISTER_AT_constructs (@initial nat unit) "25" "V4"
           "registerer_test.cc" (fun _ => 5) tt); vm_compute; reflexivity.
Defined.

(** Every entry of both tables holds a factory that never returns null. *)
Definition entry_nonnull {T A : Type} (kv : string * Entry T A) : Prop :=
  forall args, function (snd kv) args <> None.

Definition entries_nonnull {T A : Type} (s : state T A) : Prop :=
  Forall entry_nonnull (registry s) /\ Forall entry_nonnull (injectors s).

Lemma entries_nonnull_never_null {T A : Type} (s : state T A) :
  entries_nonnull s -> never_null s.
Proof.
  intros [Hr Hi] key args. rewrite CanNew_spec, New_spec.
  rewrite Forall_forall in Hr, Hi.
  destruct (find key (injectors s)) as [e|] eqn:He.
  - intros _. exact (Hi _ (find_In _ _ _ _ He) args).
  - destruct (find key (registry s)) as [e|] eqn:Hr'; [|discriminate].
    intros _. exact (Hr _ (find_In _ _ _ _ Hr') args).
Qed.

(** X: in a partition filled only by [REGISTER] declarations (in any
    order), [CanNew] true guarantees that [New] returns a non-null object. *)
Theorem static_init_never_null {T A : Type} (decls : list (declaration T A)) :
  never_null (static_init decls).
Proof.
  apply entries_nonnull_never_null. unfold static_init.
  assert (H0 : entries_nonnull (@initial T A)) by (split; constructor).
  revert H0. generalize (@initial T A).
  induction decls as [|x decls IH]; simpl; intros s0 [Hr Hi]; [split; assumption|].
  destruct x as [[[LINE KEY] FILE] d]. apply IH. unfold REGISTER_AT, TypeRegisterer. rewrite Registerer_final.
  split; simpl; auto.
  apply emplace_Forall; auto. intros args. simpl. discriminate.
Qed.

(** Operations whose factory, if any, never returns null. *)
Definition op_nonnull {T A : Type} (o : op T A) : Prop :=
  match o with
  | OpRegister f _ _ _ => forall args, f args <> None
  | OpInject _ f _ _ => forall args, f args <> None
  | OpUninject _ => True
  | OpAlias _ _ _ _ => True
  end.

(** X: when every registration and injector uses a factory that never
    returns null, every reachable state keeps [CanNew] true implying a
    non-null [New], including after injectors are disposed. *)
Theorem ops_never_null {T A : Type} (os : list (op T A))
        (Hops : Forall op_nonnull os) :
  never_null (run_ops os initial).
Proof.
  apply entries_nonnull_never_null. unfold run_ops.
  assert (H0 : entries_nonnull (@initial T A)) by (split; constructor).
  revert H0. generalize (@initial T A).
  induction os as [|o os IH]; simpl; intros s0 [Hr Hi]; [split; assumption|].
  inversion Hops as [|? ? Ho Hos]; subst.
  apply IH; auto. unfold step, exec_op. destruct o; simpl in Ho.
  - rewrite Registerer_final. split; simpl; auto. now apply emplace_Forall.
  - rewrite Injector_final. split; simpl; auto. now apply emplace_Forall.
  - rewrite Injector_destroy_final. split; simpl; auto.
    unfold erase. rewrite Forall_forall in Hi |- *.
    intros x Hx. apply filter_In in Hx. now apply Hi.
  - rewrite Alias_final. destruct (find existingKey (registry s0)) as [e|] eqn:He;
      [|split; auto].
    split; simpl; auto. apply emplace_Forall; auto.
    rewrite Forall_forall in Hr. exact (Hr _ (find_In _ _ _ _ He)).
Qed.

Lemma ops_never_null_witness :
  never_null (run_ops Claims.vehicles_ops initial).
Proof.
  apply ops_never_null. repeat constructor; simpl; discriminate.
Defined.

(** ** The example program *)

(** The shapes of [registerer_example.cc] and what their [Draw()] print. *)
Inductive example_shape : Type :=
| Circle
| Rect
| Ellipsis (params : string).

Definition Draw_example (sh : example_shape) : string :=
  match sh with
  | Circle => "Circle" ++ newline
  | Rect => "Rectangle" ++ newline
  | Ellipsis params => "Ellipsis:" ++ params ++ newline
  end.

Definition example_file : string := "registerer_example.cc".

(** [Registry<Shape>]: [REGISTER_SHAPE(Circle)], [REGISTER_SHAPE(Rectangle)]
    and [REGISTER_SHAPE(Ellipsis)] on lines 15, 22 and 29. *)
Definition shapes_unit : state example_shape unit :=
  static_init [("15", "Circle", example_file, fun _ : unit => Circle);
               ("22", "Rectangle", example_file, fun _ : unit => Rect);
               ("29", "Ellipsis", example_file, fun _ : unit => Ellipsis "")].

(** [Registry<Shape, const std::string &>]:
    [REGISTER_SHAPE(Ellipsis, const std::string &)] on line 30. *)
Definition shapes_string : state example_shape string :=
  static_init [("30", "Ellipsis", example_file, fun params : string => Ellipsis params)].

(** X: when [main]'s loop finishes, either it returns 0 with nothing on
    [std::cerr], having accepted every [(key, params)] pair and drawn one
    shape per pair, or it returns -1 after a pair whose key neither
    partition knows, and [std::cerr] holds the report for that key followed
    by the keys of [Registry<Shape>] and of [Registry<Shape, const
    std::string &>]. *)
Theorem main_loop_outcome {Shape : Type} (Draw : Shape -> string)
        (ss : state Shape string) (su : state Shape unit) (args : list string)
        (code : Z) (out err : list string)
        (Hrun : main_loop Draw ss su args = Some (code, out, err)) :
  (code = 0%Z /\ err = [] /\ forallb (known ss su) (arg_pairs args) = true /\
   length out = length (arg_pairs args)) \/
  (code = (-1)%Z /\ exists key params, In (key, params) (arg_pairs args) /\
     known ss su (key, params) = false /\ err = unknown_key_report su ss key).
Proof.
  revert args code out err Hrun. fix IH 1.
  intros [|key [|params rest]] code out err Hrun.
  - simpl in Hrun. inversion Hrun. left. auto.
  - simpl in Hrun. inversion Hrun. left. auto.
  - simpl in Hrun. simpl arg_pairs.
    assert (Hstep : forall sh, option_map (fun '(code, out, err) => (code, Draw sh :: out, err))
                      (main_loop Draw ss su rest) = Some (code, out, err) ->
                    known ss su (key, params) = true ->
                    (code = 0%Z /\ err = [] /\
                     forallb (known ss su) ((key, params) :: arg_pairs rest) = true /\
                     length out = length ((key, params) :: arg_pairs rest)) \/
                    (code = (-1)%Z /\ exists k p, In (k, p) ((key, params) :: arg_pairs rest) /\
                       known ss su (k, p) = false /\ err = unknown_key_report su ss k)).
    { intros sh Hm Hk.
      destruct (main_loop Draw ss su rest) as [[[c o] e]|] eqn:Hr; [|discriminate].
      simpl in Hm. inversion Hm; subst code out err.
      destruct (IH rest c o e Hr) as [(Hc & He & Hall & Hlen)|(Hc & k & p & Hin & Hkn & He)].
      - left. simpl. rewrite Hk, Hall. auto.
      - right. split; [exact Hc|]. exists k, p. simpl. auto. }
    destruct (result (CanNew key params) ss) eqn:E1.
    + destruct (result (New key params) ss) as [sh|]; [|discriminate].
      apply (Hstep sh Hrun). unfold known. simpl. now rewrite E1.
    + destruct (result (CanNew key tt) su) eqn:E2.
      * destruct (result (New key tt) su) as [sh|]; [|discriminate].
        apply (Hstep sh Hrun). unfold known. simpl. now rewrite E1, E2.
      * inversion Hrun; subst. right. split; [reflexivity|].
        exists key, params. split; [left; reflexivity|].
        unfold known. simpl. rewrite E1, E2. auto.
Qed.

Lemma main_loop_outcome_witness :
  forallb (known shapes_string shapes_unit)
          (arg_pairs ["Ellipsis"; "a"; "Circle"; "x"]) = true.
Proof.
  assert (Hrun : main_loop Draw_example shapes_string shapes_unit
                   ["Ellipsis"; "a"; "Circle"; "x"] =
                 Some (0%Z, [Draw_example (Ellipsis "a"); Draw_example Circle], []))
    by (vm_compute; reflexivity).
  destruct (main_loop_outcome Draw_example shapes_string shapes_unit _ _ _ _ Hrun)
    as [(_ & _ & Hall & _)|(Hc & _)].
  - exact Hall.
  - discriminate Hc.
Defined.

(** X: when [New] never returns null for a key [CanNew] accepts (as in
    partitions filled by [REGISTER]), [main]'s loop never dereferences a
    null pointer: it always finishes with an exit code. *)
Theorem main_loop_defined {Shape : Type} (Draw : Shape -> string)
        (ss : state Shape string) (su : state Shape unit)
        (Hss : never_null ss) (Hsu : never_null su) (args : list string) :
  exists r, main_loop Draw ss su args = Some r.
Proof.
  revert args. fix IH 1.
  intros [|key [|params rest]]; [eexists; reflexivity|eexists; reflexivity|].
  simpl.
  destruct (IH rest) as [[[c o] e] Hr]. rewrite Hr. simpl.
  destruct (result (CanNew key params) ss) eqn:E1.
  - destruct (result (New key params) ss) as [sh|] eqn:E3; [eexists; reflexivity|].
    exfalso. exact (Hss key params E1 E3).
  - destruct (result (CanNew key tt) su) eqn:E2; [|eexists; reflexivity].
    destruct (result (New key tt) su) as [sh|] eqn:E3; [eexists; reflexivity|].
    exfalso. exact (Hsu key tt E2 E3).
Qed.

Lemma main_loop_defined_witness :
  exists r, main_loop Draw_example shapes_string shapes_unit
              ["Rectangle"; "x"; "Square"; "y"] = Some r.
Proof.
  apply main_loop_defined; apply static_init_never_null.
Defined.

(** X: [main]'s loop only reads [argv] by pairs: an odd argument left at the
    end is ignored. *)
Theorem main_loop_odd_trailing {Shape : Type} (Draw : Shape -> string)
        (ss : state Shape string) (su : state Shape unit) (args : list string)
        (x : string) (Heven : Nat.even (length args) = true) :
  main_loop Draw ss su (args ++ [x]) = main_loop Draw ss su args.
Proof.
  revert args Heven. fix IH 1.
  intros [|key [|params rest]] Heven; [reflexivity|discriminate|].
  simpl. simpl in Heven. rewrite (IH rest Heven). reflexivity.
Qed.

Lemma main_loop_odd_trailing_witness :
  main_loop Draw_example shapes_string shapes_unit ["Circle"; "x"; "Rect"] =
  main_loop Draw_example shapes_string shapes_unit ["Circle"; "x"].
Proof.
  apply (main_loop_odd_trailing Draw_example shapes_string shapes_unit
           ["Circle"; "x"] "Rect").
  reflexivity.
Defined.

End Extras.
